(** * Matrix Calculator (matrix_calc): a shallow embedding of [main.c]

    The file has three parts.

    Part I is the program.  The algebra engine ([get_transpose],
    [get_product], [find_det], [get_determinant], [find_cofactor],
    [get_adjoint], [get_inverse] and the shape test of [product]) is
    written over an abstract arithmetic [arith], so that the same
    definitions run on IEEE binary64 numbers ([float_arith], what the C
    program computes with) and on an exact field ([field_arith], what the
    algorithm computes when nothing is rounded).  The text parser
    ([read_line], [get_new_token], [get_int], [get_double],
    [read_rows_cols], [read_array], [read_file_end], [read_matrix]) is
    written over an explicit parse state, on top of models of the C
    library functions it calls.

    Part II holds the vocabulary of the specification: tables, minors,
    the identity matrix, the reports of the parser, and sample data.

    Part III holds the lemmas about the loops of the program.

    Part IV states and proves the specification theorems.

    Conventions.  A C array is a sequence, read with [nth] and written
    with [set_nth]; a [for] loop is a left fold over [iota]; [exit] is the
    [Exit] outcome.  Dimensions and indices are natural numbers: the
    parser admits dimensions between 1 and 2000 only, so no [int]
    computation of the engine overflows.  A [double] is an IEEE binary64
    number and every operation on doubles rounds to it on its own (no
    extended precision, no fused multiply-add).  [malloc] is taken to
    succeed, and what the program prints on [stdout] is left out. *)

From Stdlib Require Import ZArith String Ascii PrimFloat SpecFloat FloatOps.
From mathcomp Require Import ssreflect ssrfun ssrbool eqtype ssrnat div seq.
From mathcomp Require Import choice fintype bigop ssralg matrix rat.

Set Implicit Arguments.
Unset Strict Implicit.
Unset Printing Implicit Defensive.

(** * Part I: the program *)

(** ** Exit codes and outcomes *)

(** [typedef enum error]. *)
Inductive Error : Type :=
  | NO_ERROR
  | INCORRECT_ARGUMENTS
  | MEMORY_ERROR
  | FILE_OPEN_ERROR
  | INVALID_FILE
  | INVALID_MATRIX.

(** The status the process exits with. *)
Definition error_code (e : Error) : nat :=
  match e with
  | NO_ERROR => 0
  | INCORRECT_ARGUMENTS => 1
  | MEMORY_ERROR => 2
  | FILE_OPEN_ERROR => 3
  | INVALID_FILE => 4
  | INVALID_MATRIX => 5
  end.

(** What the program writes on [stderr] before it calls [exit]. *)
Inductive report : Type :=
  | OpenFailed (file_name : string)
      (* exit_open_failed: "Error opening the file %s." *)
  | InvalidFile (file_name message : string) (line_number : Z)
      (token : option string)
      (* exit_invalid_file: "%s is an invalid matrix file. %s" and
         "The invalid string in line %d of the file is\n%s"; the token is
         [None] when the context holds a NULL pointer *)
  | DeterminantZero
      (* get_inverse: "The determinant is 0, so the inverse of the matrix
         could not be found." *)
  | NoProduct.
      (* product: "It is not possible to find the matrix product of these
         two matrices." *)

(** A call either returns, or ends the process through [exit], or runs
    into behaviour the C standard leaves undefined (a NULL pointer handed
    to [strtol]). *)
Inductive outcome (A : Type) : Type :=
  | Ret (a : A)
  | Exit (e : Error) (r : report)
  | Undefined.

Arguments Ret {A} a.
Arguments Exit {A} e r.
Arguments Undefined {A}.

(** ** The arithmetic of [double] *)

(** The operations the engine performs on matrix elements: the literals
    [0], [1] and [-1], [+], [-], [*], [/] and the test [x == 0]. *)
Record arith : Type := Arith {
  num :> Type;
  fzero : num;
  fone : num;
  fmone : num;
  fadd : num -> num -> num;
  fsub : num -> num -> num;
  fmul : num -> num -> num;
  fdiv : num -> num -> num;
  feq0 : num -> bool
}.

(** [struct matrix]: the dimensions and the row-major array of elements. *)
Record Matrix (T : Type) : Type := mkMatrix {
  rows : nat;
  cols : nat;
  values : seq T
}.

(** The data invariant: [values] holds [rows * cols] elements. *)
Definition wf (T : Type) (m : Matrix T) : Prop :=
  size (values m) = rows m * cols m.

Section Engine.

Variable F : arith.

Local Notation zero := (fzero F).
Local Notation one := (fone F).
Local Notation "x +. y" := (fadd x y) (at level 50, left associativity).
Local Notation "x -. y" := (fsub x y) (at level 50, left associativity).
Local Notation "x *. y" := (fmul x y) (at level 40, left associativity).
Local Notation "x /. y" := (fdiv x y) (at level 40, left associativity).

(** [a[k]] as an rvalue. *)
Definition load (a : seq F) (k : nat) : F := nth zero a k.

(** [m->values[k] = x]. *)
Definition store (m : Matrix F) (k : nat) (x : F) : Matrix F :=
  mkMatrix (rows m) (cols m) (set_nth zero (values m) k x).

(** [create_matrix]: the cells come from [malloc] and hold no meaningful
    value until they are assigned; they are shown here as [0]. *)
Definition create_matrix (r c : nat) : Matrix F :=
  mkMatrix r c (nseq (r * c) zero).

(** [A[i,j]], the element in row [i] and column [j]. *)
Definition elem (m : Matrix F) (i j : nat) : F :=
  load (values m) (i * cols m + j).

(** [pow(-1, k)] for a non-negative integer [k]: exactly [1] or [-1]. *)
Definition pow_m1 (k : nat) : F := if odd k then fmone F else one.

(** [get_transpose]. *)
Definition get_transpose (matrix : Matrix F) : Matrix F :=
  let new_mat := create_matrix (cols matrix) (rows matrix) in
  foldl (fun new_mat i =>
    foldl (fun new_mat j =>
      store new_mat (j * cols new_mat + i)
            (load (values matrix) (i * cols matrix + j)))
      new_mat (iota 0 (rows new_mat)))
    new_mat (iota 0 (cols new_mat)).

(** [get_product]: [sum] lives outside the loops and is reset after each
    element has been stored. *)
Definition get_product (matrix1 matrix2 : Matrix F) : Matrix F :=
  let new_mat := create_matrix (rows matrix1) (cols matrix2) in
  (foldl (fun st k =>
     foldl (fun st i =>
       let: (sum, new_mat) := st in
       let sum :=
         foldl (fun sum j =>
           sum +. load (values matrix1) (k * cols matrix1 + j)
                 *. load (values matrix2) (j * cols matrix2 + i))
           sum (iota 0 (cols matrix1)) in
       (zero, store new_mat (k * cols new_mat + i) sum))
       st (iota 0 (cols new_mat)))
     (zero, new_mat) (iota 0 (rows new_mat))).2.

(** The body of [find_det]'s loop that fills [sub_mat] for one top-row
    element: rows [1 .. rows-1], every column but [top_row], written at the
    running index [k]. *)
Definition fill_sub_mat (matrix sub_mat : Matrix F) (top_row : nat)
  : nat * Matrix F :=
  foldl (fun st i =>
    foldl (fun st j =>
      if j != top_row
      then (st.1.+1,
            store st.2 st.1 (load (values matrix) (i * cols matrix + j)))
      else st)
      st (iota 0 (cols matrix)))
    (0, sub_mat) (iota 1 (rows matrix).-1).

(** [find_det].  The recursion is on the number of columns [n] of the
    argument: each call recurses on a matrix with one column less, and a
    matrix with no column never enters the loop. *)
Fixpoint find_det_rec (n : nat) (matrix : Matrix F) : F :=
  if rows matrix == 2 then
    load (values matrix) 0 *. load (values matrix) 3
    -. load (values matrix) 1 *. load (values matrix) 2
  else
    match n with
    | O => zero
    | n'.+1 =>
      let sub_mat := create_matrix (rows matrix).-1 (cols matrix).-1 in
      (foldl (fun st top_row =>
         let: (det, sub_mat) := st in
         let sub_mat := (fill_sub_mat matrix sub_mat top_row).2 in
         (det +. pow_m1 top_row *. load (values matrix) top_row
                 *. find_det_rec n' sub_mat,
          sub_mat))
         (zero, sub_mat) (iota 0 (cols matrix))).1
    end.

Definition find_det (matrix : Matrix F) : F :=
  find_det_rec (cols matrix) matrix.

(** [get_determinant]. *)
Definition get_determinant (matrix : Matrix F) : F :=
  if rows matrix == 1 then load (values matrix) 0 else find_det matrix.

(** The loop of [find_cofactor] that fills [minor_mat] for element
    [(i, j)]. *)
Definition fill_minor_mat (matrix minor_mat : Matrix F) (i j : nat)
  : nat * Matrix F :=
  foldl (fun st m =>
    foldl (fun st n =>
      if (n != j) && (m != i)
      then (st.1.+1,
            store st.2 st.1 (load (values matrix) (m * cols matrix + n)))
      else st)
      st (iota 0 (cols matrix)))
    (0, minor_mat) (iota 0 (rows matrix)).

(** [find_cofactor]. *)
Definition find_cofactor (matrix : Matrix F) : Matrix F :=
  let new_mat := create_matrix (rows matrix) (cols matrix) in
  foldl (fun new_mat i =>
    foldl (fun new_mat j =>
      let minor_mat := create_matrix (rows matrix).-1 (cols matrix).-1 in
      let minor_mat := (fill_minor_mat matrix minor_mat i j).2 in
      let cofactor := pow_m1 (i + j) *. get_determinant minor_mat in
      store new_mat (i * cols new_mat + j) cofactor)
      new_mat (iota 0 (cols matrix)))
    new_mat (iota 0 (rows matrix)).

(** [get_adjoint]. *)
Definition get_adjoint (matrix : Matrix F) : Matrix F :=
  if rows matrix == 1 then
    store (create_matrix (rows matrix) (cols matrix)) 0 one
  else
    get_transpose (find_cofactor matrix).

(** [get_inverse]. *)
Definition get_inverse (matrix : Matrix F) : outcome (Matrix F) :=
  let det := get_determinant matrix in
  if feq0 det then Exit INVALID_MATRIX DeterminantZero
  else
    let adj_mat := get_adjoint matrix in
    let inv_mat := create_matrix (rows matrix) (cols matrix) in
    Ret (foldl (fun inv_mat i =>
           foldl (fun inv_mat j =>
             store inv_mat (i * cols inv_mat + j)
                   (load (values adj_mat) (i * cols adj_mat + j) /. det))
             inv_mat (iota 0 (cols matrix)))
           inv_mat (iota 0 (rows matrix))).

(** The part of [product] between reading the two files and writing the
    result: the shape test, the automatic swap of the operands (the
    boolean tells whether the swap notice was printed) and the call of
    [get_product]. *)
Definition product (a b : Matrix F) : outcome (bool * Matrix F) :=
  if (cols a != rows b) && (cols b != rows a) then
    Exit INVALID_MATRIX NoProduct
  else if (cols a != rows b) && (cols b == rows a) then
    Ret (true, get_product b a)
  else
    Ret (false, get_product a b).

End Engine.

(** ** IEEE binary64 arithmetic: what the C program computes with *)

Definition float_arith : arith :=
  @Arith float 0%float 1%float (-1)%float
         PrimFloat.add PrimFloat.sub PrimFloat.mul PrimFloat.div
         (fun x => PrimFloat.eqb x 0%float).

Definition fmatrix (r c : nat) (v : seq float) : Matrix float_arith :=
  mkMatrix r c v.

(** ** Exact arithmetic *)

(** The arithmetic of a field: what the operations of [double] stand for
    when nothing is rounded. *)
Definition field_arith (K : fieldType) : arith :=
  @Arith K 0%R 1%R (-1)%R +%R (fun x y => (x - y)%R) *%R
         (fun x y => (x / y)%R) (fun x => x == 0%R).

(** ** The C library functions the parser calls *)

(** The parser reads its input with [fgets], cuts lines into tokens with
    [strtok] and converts tokens with [strtol] and [strtod].  These are
    functions of the C library, not of this program; they are modelled
    here from the C standard (ISO C99 7.19.7.2, 7.21.5.8, 7.20.1.4 and
    7.20.1.3), [strtod] with IEEE round-to-nearest-even conversion. *)

Definition MAX_LINE_LENGTH : nat := 40000.
Definition MAX_ROWS_COLS : Z := 2000.

Definition char_tab : ascii := "009"%char.
Definition char_nl : ascii := "010"%char.
Definition char_vt : ascii := "011"%char.
Definition char_ff : ascii := "012"%char.
Definition char_cr : ascii := "013"%char.

(** [TOKEN_SEPARATORS]: space, tab, carriage return, newline. *)
Definition is_separator (c : ascii) : bool :=
  [|| Ascii.eqb c " ", Ascii.eqb c char_tab, Ascii.eqb c char_cr
    | Ascii.eqb c char_nl].

Definition isspace (c : ascii) : bool :=
  [|| Ascii.eqb c " ", Ascii.eqb c char_tab, Ascii.eqb c char_nl,
      Ascii.eqb c char_vt, Ascii.eqb c char_ff | Ascii.eqb c char_cr].

Definition isdigit (c : ascii) : bool :=
  (48 <= nat_of_ascii c) && (nat_of_ascii c <= 57).

Definition tolower (c : ascii) : ascii :=
  if (65 <= nat_of_ascii c) && (nat_of_ascii c <= 90)
  then ascii_of_nat (nat_of_ascii c + 32) else c.

Definition isxdigit (c : ascii) : bool :=
  isdigit c
  || ((97 <= nat_of_ascii (tolower c)) && (nat_of_ascii (tolower c) <= 102)).

Definition isalnum_ (c : ascii) : bool :=
  [|| isdigit c,
      (97 <= nat_of_ascii (tolower c)) && (nat_of_ascii (tolower c) <= 122)
    | Ascii.eqb c "_"].

(** The value of a decimal or hexadecimal digit. *)
Definition digit_value (c : ascii) : Z :=
  if isdigit c then Z.of_nat (nat_of_ascii c - 48)
  else Z.of_nat (nat_of_ascii (tolower c) - 87).

(** [fgets(line, size, file)], on the characters [f] not read yet: at most
    [size - 1] characters, up to and including the first newline.  The
    result is [None] (a NULL pointer) only when no character is left. *)
Fixpoint fgets_chars (n : nat) (f : string) : string * string :=
  match n, f with
  | O, _ => (EmptyString, f)
  | _, EmptyString => (EmptyString, EmptyString)
  | n'.+1, String c f' =>
    if Ascii.eqb c char_nl then (String c EmptyString, f')
    else let: (line, rest) := fgets_chars n' f' in (String c line, rest)
  end.

Definition fgets (size : nat) (f : string) : option (string * string) :=
  match f with
  | EmptyString => None
  | _ => Some (fgets_chars size.-1 f)
  end.

(** [strtok]: skip separators, then cut the token at the next separator.
    The second component is the position [strtok] keeps for the next call
    with a NULL first argument. *)
Fixpoint skip_chars (p : ascii -> bool) (s : string) : string :=
  match s with
  | String c s' => if p c then skip_chars p s' else s
  | EmptyString => EmptyString
  end.

Fixpoint cut_token (s : string) : string * string :=
  match s with
  | EmptyString => (EmptyString, EmptyString)
  | String c s' =>
    if is_separator c then (EmptyString, s')
    else let: (t, rest) := cut_token s' in (String c t, rest)
  end.

Definition strtok (s : string) : option string * string :=
  match skip_chars is_separator s with
  | EmptyString => (None, EmptyString)
  | s' => let: (t, rest) := cut_token s' in (Some t, rest)
  end.

(** The longest prefix of characters satisfying [p], and what follows. *)
Fixpoint span (p : ascii -> bool) (s : string) : string * string :=
  match s with
  | String c s' =>
    if p c then let: (a, b) := span p s' in (String c a, b)
    else (EmptyString, s)
  | EmptyString => (EmptyString, EmptyString)
  end.

Fixpoint digits_value (base : Z) (acc : Z) (s : string) : Z :=
  match s with
  | String c s' => digits_value base (Z.add (Z.mul acc base) (digit_value c)) s'
  | EmptyString => acc
  end.

(** An optional sign: whether it is [-], and what follows. *)
Definition read_sign (s : string) : bool * string :=
  match s with
  | String c s' =>
    if Ascii.eqb c "-" then (true, s')
    else if Ascii.eqb c "+" then (false, s') else (false, s)
  | EmptyString => (false, s)
  end.

Definition LONG_MAX : Z := 9223372036854775807.
Definition LONG_MIN : Z := -9223372036854775808.

(** [strtol(token, &end_ptr, 10)]: the value and the text at [end_ptr]. *)
Definition strtol (token : string) : Z * string :=
  let: (neg, s) := read_sign (skip_chars isspace token) in
  let: (ds, rest) := span isdigit s in
  match ds with
  | EmptyString => (0%Z, token)
  | _ =>
    let v := digits_value 10 0 ds in
    (Z.max LONG_MIN (Z.min LONG_MAX (if neg then Z.opp v else v)), rest)
  end.

(** Whether [p], written in lower case, is a prefix of [s] when case is
    ignored; if so, what follows it. *)
Fixpoint strip_prefix_ci (p s : string) : option string :=
  match p, s with
  | EmptyString, _ => Some s
  | String a p', String c s' =>
    if Ascii.eqb a (tolower c) then strip_prefix_ci p' s' else None
  | _, EmptyString => None
  end.

(** The double nearest to [n / d] (ties to even), with the given sign. *)
Definition round_ratio (neg : bool) (n : Z) (d : positive) : float :=
  match n with
  | Zpos _ =>
    let: (q, e, l) := SFdiv_core_binary prec emax n 0 (Zpos d) 0 in
    SF2Prim (binary_round_aux prec emax neg q e l)
  | _ => if neg then neg_zero else zero
  end.

(** The double nearest to [m * base ^ e]. *)
Definition scale_round (neg : bool) (m : Z) (base : Z) (e : Z) : float :=
  match e with
  | Zneg p => round_ratio neg m (Z.to_pos (Z.pow base (Zpos p)))
  | _ => round_ratio neg (Z.mul m (Z.pow base e)) 1
  end.

(** An optional exponent part after the mantissa: the marker [mark]
    ([e] or [p]), an optional sign and at least one decimal digit. *)
Definition read_exponent (mark : ascii) (s : string) : Z * string :=
  match s with
  | String c s' =>
    if Ascii.eqb (tolower c) mark then
      let: (neg, s1) := read_sign s' in
      let: (ds, rest) := span isdigit s1 in
      match ds with
      | EmptyString => (0%Z, s)
      | _ => let v := digits_value 10 0 ds in
             (if neg then Z.opp v else v, rest)
      end
    else (0%Z, s)
  | EmptyString => (0%Z, s)
  end.

(** A mantissa: digits, optionally with one radix point, at least one
    digit in all.  The result is the digits without the point, the number
    of digits after the point, and what follows. *)
Definition read_mantissa (isdig : ascii -> bool) (s : string)
  : option (string * nat * string) :=
  let: (ip, s1) := span isdig s in
  let: (fp, s2) :=
    match s1 with
    | String c s1' => if Ascii.eqb c "." then span isdig s1' else (EmptyString, s1)
    | EmptyString => (EmptyString, s1)
    end in
  match String.append ip fp with
  | EmptyString => None
  | ds => Some (ds, String.length fp, s2)
  end.

(** [strtod(token, &end_ptr)]: the value and the text at [end_ptr].  The
    accepted forms are, after optional white space and an optional sign:
    [inf] or [infinity]; [nan] or [nan(...)]; a hexadecimal
    floating-point number [0x...]; a decimal floating-point number.  When
    none is found, no conversion is made and [end_ptr] is [token]. *)
Definition strtod (token : string) : float * string :=
  let: (neg, s) := read_sign (skip_chars isspace token) in
  let signed (x : float) := if neg then PrimFloat.opp x else x in
  match strip_prefix_ci "infinity" s with
  | Some rest => (signed infinity, rest)
  | None =>
  match strip_prefix_ci "inf" s with
  | Some rest => (signed infinity, rest)
  | None =>
  match strip_prefix_ci "nan" s with
  | Some rest =>
    match rest with
    | String c r =>
      if Ascii.eqb c "(" then
        match (span isalnum_ r).2 with
        | String c' r' => if Ascii.eqb c' ")" then (nan, r') else (nan, rest)
        | EmptyString => (nan, rest)
        end
      else (nan, rest)
    | EmptyString => (nan, rest)
    end
  | None =>
  let hex :=
    match strip_prefix_ci "0x" s with
    | Some s' => read_mantissa isxdigit s'
    | None => None
    end in
  match hex with
  | Some (ds, k, s1) =>
    let: (e, rest) := read_exponent "p" s1 in
    (scale_round neg (digits_value 16 0 ds) 2 (Z.sub e (Z.mul 4 (Z.of_nat k))),
     rest)
  | None =>
  match read_mantissa isdigit s with
  | Some (ds, k, s1) =>
    let: (e, rest) := read_exponent "e" s1 in
    (scale_round neg (digits_value 10 0 ds) 10 (Z.sub e (Z.of_nat k)), rest)
  | None => (zero, token)
  end end end end end.

(** ** The parser *)

(** [struct context].  [file] is the part of the input that has not been
    read yet; [token] is [None] for a NULL pointer. *)
Record Context : Type := mkContext {
  file : string;
  file_name : string;
  token : option string;
  line_number : Z
}.

(** The state a parse runs in: the context, and the position that
    [strtok] keeps between calls. *)
Record world : Type := mkWorld {
  context : Context;
  strtok_save : string
}.

Definition parser (A : Type) : Type := world -> outcome (A * world).

Definition ret (A : Type) (a : A) : parser A := fun w => Ret (a, w).

Definition bind (A B : Type) (p : parser A) (k : A -> parser B) : parser B :=
  fun w =>
    match p w with
    | Ret (a, w') => k a w'
    | Exit e r => Exit e r
    | Undefined => Undefined
    end.

Notation "'let*' x := p 'in' k" := (bind p (fun x => k))
  (at level 200, x name, p at level 100, k at level 200).

(** A [for] loop whose body may leave the program. *)
Fixpoint for_each (S : Type) (l : seq nat) (body : nat -> S -> parser S)
         (s : S) : parser S :=
  match l with
  | [::] => ret s
  | i :: l' => let* s' := body i s in for_each l' body s'
  end.

(** [exit_invalid_file]: the report shows the file name, the message, and
    the line number and token held by the context. *)
Definition exit_invalid_file (A : Type) (message : string) : parser A :=
  fun w =>
    Exit INVALID_FILE
      (InvalidFile (file_name (context w)) message
                   (line_number (context w)) (token (context w))).

Arguments exit_invalid_file {A} message%_string_scope.

(** [token[0] == '#']. *)
Definition starts_with_hash (t : string) : bool :=
  match t with
  | String c _ => Ascii.eqb c "#"
  | EmptyString => false
  end.

(** [token != NULL && *token != '#']. *)
Definition unexpected (token : option string) : bool :=
  match token with
  | Some t => ~~ starts_with_hash t
  | None => false
  end.

(** [read_line].  Each recursive call follows a successful [fgets], which
    consumes at least one character; [fuel] bounds the depth. *)
Fixpoint read_line_rec (fuel : nat) (w : world)
  : option (outcome (option string * world)) :=
  match fuel with
  | O => None
  | fuel'.+1 =>
    let c := context w in
    let c := mkContext (file c) (file_name c) (token c)
                       (Z.add (line_number c) 1) in
    match fgets MAX_LINE_LENGTH (file c) with
    | None => Some (exit_invalid_file EmptyString (mkWorld c (strtok_save w)))
    | Some (line, rest) =>
      let: (tok, save) := strtok line in
      let w' := mkWorld (mkContext rest (file_name c) tok (line_number c))
                        save in
      match tok with
      | None => read_line_rec fuel' w'
      | Some t =>
        if starts_with_hash t then read_line_rec fuel' w'
        else Some (Ret (tok, w'))
      end
    end
  end.

Definition read_line : parser (option string) :=
  fun w =>
    match read_line_rec (String.length (file (context w))).+1 w with
    | Some r => r
    | None => Undefined
    end.

(** [get_new_token]. *)
Definition get_new_token : parser (option string) :=
  fun w =>
    let: (tok, save) := strtok (strtok_save w) in
    let c := context w in
    Ret (tok, mkWorld (mkContext (file c) (file_name c) tok (line_number c))
                      save).

(** [get_int].  A NULL token reaches [strtol] unchecked. *)
Definition get_int (token : option string) : parser nat :=
  match token with
  | None => fun _ => Undefined
  | Some t =>
    let: (value, end_ptr) := strtol t in
    if ~~ String.eqb end_ptr EmptyString || Z.ltb value 1 then
      exit_invalid_file "Stated rows or columns are invalid."
    else if Z.gtb value MAX_ROWS_COLS then
      exit_invalid_file
        "Rows or columns of the matrix are bigger than the maximum value allowed."
    else ret (Z.to_nat value)
  end.

(** [get_double] (the [free_matrix] before the exit leaves no trace). *)
Definition get_double (token : option string) : parser float :=
  match token with
  | None => fun _ => Undefined
  | Some t =>
    let: (value, end_ptr) := strtod t in
    if ~~ String.eqb end_ptr EmptyString then
      exit_invalid_file "Matrix element is invalid."
    else ret value
  end.

(** [read_rows_cols]. *)
Definition read_rows_cols (token : option string) : parser (nat * nat) :=
  match token with
  | None => fun _ => Undefined
  | Some t =>
    if ~~ String.eqb t "matrix" then exit_invalid_file EmptyString
    else
      let* token := get_new_token in
      let* rows := get_int token in
      let* token := get_new_token in
      let* cols := get_int token in
      let* token := get_new_token in
      if unexpected token then
        exit_invalid_file "There are unexpected characters in the file."
      else ret (rows, cols)
  end.

(** [read_array]. *)
Definition read_array (matrix : Matrix float_arith)
  : parser (Matrix float_arith) :=
  for_each (iota 0 (rows matrix)) (fun i (matrix : Matrix float_arith) =>
    let* token := read_line in
    let* st :=
      for_each (iota 0 (cols matrix))
        (fun j (st : option string * Matrix float_arith) =>
          let: (token, matrix) := st in
          match token with
          | None =>
            exit_invalid_file "Number of stated columns does not match file."
          | Some t =>
            if String.eqb t "end" then
              exit_invalid_file "Number of stated rows does not match file."
            else
              let* value := get_double token in
              let matrix := store matrix (i * cols matrix + j) value in
              let* token := get_new_token in
              ret (token, matrix)
          end) (token, matrix) in
    let: (token, matrix) := st in
    if unexpected token then
      exit_invalid_file "Unexpected characters in the file."
    else ret matrix) matrix.

(** [read_file_end]. *)
Definition read_file_end : parser unit :=
  let* token := read_line in
  match token with
  | None => fun _ => Undefined
  | Some t =>
    if ~~ String.eqb t "end" then
      exit_invalid_file "Could not find the end of the file."
    else
      let* token := get_new_token in
      if unexpected token then
        exit_invalid_file "Unexpected characters in the file."
      else ret tt
  end.

(** [read_matrix].  [fopen] tells what [fopen(file_name, "r")] finds:
    [None] when the file cannot be opened, its contents otherwise.
    [line_number0] and [token0] are the values the fields
    [file_context.line_number] and [file_context.token] happen to hold:
    [read_matrix] assigns only [file] and [file_name] before the first
    [read_line] increments the one and may print the other. *)
Definition read_matrix (fopen : string -> option string)
           (line_number0 : Z) (token0 : option string) (file_name : string)
  : outcome (Matrix float_arith) :=
  match fopen file_name with
  | None => Exit FILE_OPEN_ERROR (OpenFailed file_name)
  | Some f =>
    let file_context := mkContext f file_name token0 line_number0 in
    match
      (let* token := read_line in
       let* dims := read_rows_cols token in
       let matrix := create_matrix float_arith dims.1 dims.2 in
       let* matrix := read_array matrix in
       let* _ := read_file_end in
       ret matrix) (mkWorld file_context EmptyString)
    with
    | Ret (matrix, _) => Ret matrix
    | Exit e r => Exit e r
    | Undefined => Undefined
    end
  end.

(** A file made of the given lines, each ended by a newline. *)
Definition unlines (ls : seq string) : string :=
  foldr (fun l s => String.append l (String char_nl s)) EmptyString ls.

(** A file system that holds one file. *)
Definition one_file (contents : string) : string -> option string :=
  fun _ => Some contents.

(** [n] spaces. *)
Definition spaces (n : nat) : string :=
  iter n (String " "%char) EmptyString.

(** * Part II: the vocabulary of the specification *)

(** ** Tables and array writes *)

Section Tables.

Variables (T : Type) (x0 : T).

(** The [R * C] values [f i j], row after row. *)
Definition tab (R C : nat) (f : nat -> nat -> T) : seq T :=
  mkseq (fun q => f (q %/ C) (q %% C)) (R * C).

(** The array [buf] after the writes [buf[pos k] = val k], for [k] in
    [ks] in that order. *)
Definition write_all (K : eqType) (pos : K -> nat) (val : K -> T)
           (ks : seq K) (buf : seq T) : seq T :=
  foldl (fun b k => set_nth x0 b (pos k) (val k)) buf ks.

(** One write [buf[k++] = x] at a running index. *)
Definition push (st : nat * seq T) (x : T) : nat * seq T :=
  (st.1.+1, set_nth x0 st.2 st.1 x).

End Tables.

(** ** Minors, products, the identity *)

Section EngineVocabulary.

Variable F : arith.

(** The matrix that remains when row [i] and column [j] of [A] are
    deleted: the elements of [A], row after row, whose row is not [i] and
    whose column is not [j]. *)
Definition minor (A : Matrix F) (i j : nat) : Matrix F :=
  mkMatrix (rows A).-1 (cols A).-1
    [seq elem A m n | m <- [seq m <- iota 0 (rows A) | m != i],
                      n <- [seq n <- iota 0 (cols A) | n != j]].

(** The identity matrix of size [n]. *)
Definition identity (n : nat) : Matrix F :=
  mkMatrix n n (tab n n (fun i j => if i == j then fone F else fzero F)).

(** The sum that [get_product] accumulates for element [(k, i)]: it starts
    from [0] and adds the products in the order [j = 0, 1, ...]. *)
Definition dot (A B : Matrix F) (k i : nat) : F :=
  foldl (fun sum j => fadd sum (fmul (elem A k j) (elem B j i)))
        (fzero F) (iota 0 (cols A)).

End EngineVocabulary.

(** The square matrix of size [n] that a [Matrix] value holds. *)
Definition mx_of (K : fieldType) (n : nat) (A : Matrix (field_arith K))
  : 'M[K]_n :=
  (\matrix_(i, j) elem A i j)%R.

(** ** Closeness to the identity, in doubles *)

(** [|x - y| <= tol], as the C comparison of doubles. *)
Definition near (tol x y : float) : bool :=
  PrimFloat.leb (PrimFloat.abs (PrimFloat.sub x y)) tol.

(** Every element of the [n x n] matrix [M] is within [tol] of the
    corresponding element of the identity. *)
Definition identity_within (tol : float) (n : nat) (M : Matrix float_arith)
  : bool :=
  all (fun i =>
    all (fun j => near tol (elem M i j) (if i == j then 1%float else 0%float))
        (iota 0 n))
      (iota 0 n).

Definition tol_1e9 : float := 0x1.12e0be826d695p-30%float.

(** ** Reports of the parser *)

(** The messages [exit_invalid_file] is called with. *)
Definition invalid_file_messages : seq string :=
  [:: EmptyString;
      "Stated rows or columns are invalid.";
      "Rows or columns of the matrix are bigger than the maximum value allowed.";
      "Matrix element is invalid.";
      "There are unexpected characters in the file.";
      "Number of stated columns does not match file.";
      "Number of stated rows does not match file.";
      "Unexpected characters in the file.";
      "Could not find the end of the file."]%string.

Definition known_message (m : string) : bool :=
  has (String.eqb m) invalid_file_messages.

(** An exit of the parser proper: code [INVALID_FILE] and a report that
    names the file and carries one of the known messages. *)
Definition invalid_file_exit (name : string) (e : Error) (r : report) : Prop :=
  e = INVALID_FILE
  /\ exists message line tok,
       r = InvalidFile name message line tok /\ known_message message.

(** A parsing step that keeps the file name and leaves the program only
    through [exit_invalid_file]. *)
Definition well_behaved (A : Type) (p : parser A) : Prop :=
  forall w,
    match p w with
    | Ret (_, w') => file_name (context w') = file_name (context w)
    | Exit e r => invalid_file_exit (file_name (context w)) e r
    | Undefined => True
    end.

(** ** Sample data *)

(** Sample matrices. *)
Definition M23 : Matrix float_arith := fmatrix 2 3 [:: 1; 2; 3; 4; 5; 6]%float.
Definition M33 : Matrix float_arith :=
  fmatrix 3 3 [:: 2; 0; 1; 1; 3; 2; 1; 1; 4]%float.
Definition M32 : Matrix float_arith := fmatrix 3 2 [:: 1; 0; 0; 1; 2; 2]%float.

Definition Q22 : Matrix (field_arith rat) :=
  mkMatrix 2 2 [:: 2%:R; 1%:R; 1%:R; 1%:R]%R.

(** A 2 x 2 matrix of integers whose determinant is exactly [3]. *)
Definition A_ill : Matrix float_arith :=
  fmatrix 2 2 [:: 67108865; 67108864; 67108868; 67108867]%float.

(** The matrix [get_inverse A_ill] returns (its elements are
    22369622.333333332, -22369621.333333332, -22369622.666666668 and
    22369621.666666668). *)
Definition A_ill_inverse : Matrix float_arith :=
  Eval vm_compute in
    match get_inverse A_ill with Ret B => B | _ => A_ill end.

Definition text_2x2 : string :=
  unlines [:: "matrix 2 2"; "1 2"; "3 4"; "end"]%string.

Definition text_special : string :=
  unlines [:: "matrix 1 3"; "inf nan 0x1p3"; "end"]%string.

(** A file whose second line is 40001 characters long. *)
Definition long_line : string := String.append (spaces 40000) "5".

Definition text_long_line : string :=
  unlines [:: "matrix 1 1"%string; long_line; "end"%string].

(** The file that holds [A_ill]. *)
Definition text_A_ill : string :=
  unlines [:: "matrix 2 2"; "67108865 67108864"; "67108868 67108867";
              "end"]%string.

(** A file whose only element is not a number. *)
Definition text_bad_element : string :=
  unlines [:: "matrix 1 1"; "2x"; "end"]%string.

(** * Part III: the loops of the program *)

(** ** Loops that fill an array *)

Section Loops.

Variables (T : Type) (x0 : T).

Lemma iota_rcons (m n : nat) : iota m n.+1 = rcons (iota m n) (m + n).
Proof. by rewrite -addn1 iotaD /= cats1. Qed.

Lemma foldl_map_arg (S A B : Type) (g : S -> B -> S) (h : A -> B)
      (s : seq A) (z : S) :
  foldl (fun z x => g z (h x)) z s = foldl g z [seq h x | x <- s].
Proof. by elim: s z => [|x s IH] z //=. Qed.

Lemma foldl_filter_arg (S A : Type) (p : pred A) (g : S -> A -> S)
      (s : seq A) (z : S) :
  foldl (fun z x => if p x then g z x else z) z s
  = foldl g z [seq x <- s | p x].
Proof. by elim: s z => [|x s IH] z //=; case: (p x) => /=. Qed.

Lemma foldl_flatten (S A B : Type) (g : S -> B -> S) (t : A -> seq B)
      (s : seq A) (z : S) :
  foldl (fun z i => foldl g z (t i)) z s
  = foldl g z (flatten [seq t i | i <- s]).
Proof. by elim: s z => [|i s IH] z //=; rewrite foldl_cat IH. Qed.

(** Two nested loops are one loop over the pairs of their indices. *)
Lemma foldl_pairs (S A B : Type) (g : S -> A * B -> S)
      (s : seq A) (t : seq B) (z : S) :
  foldl (fun z i => foldl (fun z j => g z (i, j)) z t) z s
  = foldl g z [seq (i, j) | i <- s, j <- t].
Proof.
rewrite -(foldl_flatten g (fun i => [seq (i, j) | j <- t])).
elim: s z => [|i s IH] z //=.
by rewrite IH -foldl_map_arg.
Qed.

(** *** Writes at computed positions *)

Section WriteAll.

Variables (K : eqType) (pos : K -> nat) (val : K -> T).

Local Notation write_all := (write_all x0 pos val).

Lemma size_write_all (ks : seq K) (buf : seq T) :
  {in ks, forall k, pos k < size buf} ->
  size (write_all ks buf) = size buf.
Proof.
elim: ks buf => [|k ks IH] buf //= Hin.
have Hk : pos k < size buf by apply: Hin; rewrite mem_head.
have Hsz : size (set_nth x0 buf (pos k) (val k)) = size buf.
  by rewrite size_set_nth; apply/maxn_idPr.
rewrite /write_all /= -/(write_all _ _) IH ?Hsz // => k' Hk'.
by apply: Hin; rewrite inE Hk' orbT.
Qed.

Lemma nth_write_all_notin (ks : seq K) (buf : seq T) (q : nat) :
  {in ks, forall k, pos k != q} ->
  nth x0 (write_all ks buf) q = nth x0 buf q.
Proof.
elim: ks buf => [|k ks IH] buf //= Hin.
rewrite /write_all /= -/(write_all _ _) IH.
  by move=> k' Hk'; apply: Hin; rewrite inE Hk' orbT.
rewrite nth_set_nth /=.
have /negbTE: pos k != q by apply: Hin; rewrite mem_head.
by rewrite eq_sym => ->.
Qed.

Lemma nth_write_all (ks : seq K) (buf : seq T) (k : K) :
  k \in ks -> {in ks &, injective pos} ->
  nth x0 (write_all ks buf) (pos k) = val k.
Proof.
elim: ks buf => [|k0 ks IH] buf //= Hk Hinj.
rewrite /write_all /= -/(write_all _ _).
have Hinj' : {in ks &, injective pos}.
  by move=> a b Ha Hb; apply: Hinj; rewrite inE ?Ha ?Hb orbT.
case Hmem: (k \in ks); first exact: IH.
move: Hk Hmem; rewrite inE => /orP [/eqP -> Hmem|-> //].
rewrite nth_write_all_notin ?nth_set_nth /= ?eqxx // => k' Hk'.
apply/eqP => Heq.
have Ek : k' = k0.
  by apply: Hinj => //; rewrite inE ?eqxx ?Hk' ?orbT.
by rewrite -Ek Hk' in Hmem.
Qed.

End WriteAll.

(** *** Tables in row-major order *)

Lemma size_tab (R C : nat) (f : nat -> nat -> T) : size (tab R C f) = R * C.
Proof. by rewrite size_mkseq. Qed.

Lemma ltn_row_major (R C i j : nat) : i < R -> j < C -> i * C + j < R * C.
Proof.
move=> Hi Hj.
apply: (@leq_trans (i.+1 * C)); first by rewrite mulSn addnC ltn_add2r.
by rewrite leq_mul2r Hi orbT.
Qed.

Lemma nth_tab (R C : nat) (f : nat -> nat -> T) (i j : nat) :
  i < R -> j < C -> nth x0 (tab R C f) (i * C + j) = f i j.
Proof.
move=> Hi Hj; rewrite nth_mkseq ?ltn_row_major //.
have HC : 0 < C by apply: leq_ltn_trans Hj.
by rewrite divnMDl // modnMDl divn_small // modn_small // addn0.
Qed.

Lemma row_major_inj (C i j i' j' : nat) :
  j < C -> j' < C -> i * C + j = i' * C + j' -> i = i' /\ j = j'.
Proof.
move=> Hj Hj' E.
have HC : 0 < C by apply: leq_ltn_trans Hj.
have Ei : i = i'.
  move: (congr1 (divn^~ C) E).
  by rewrite !divnMDl // !divn_small // !addn0.
split=> //; move: E; rewrite Ei; exact: addnI.
Qed.

Lemma mem_pairs_iota (R C i j : nat) :
  ((i, j) \in [seq (a, b) | a <- iota 0 R, b <- iota 0 C]) = (i < R) && (j < C).
Proof.
apply/allpairsP/andP => [[[a b] /= [Ha Hb [-> ->]]]|[Hi Hj]].
  by move: Ha Hb; rewrite !mem_iota /= !add0n.
by exists (i, j); split=> //=; rewrite mem_iota /= add0n.
Qed.

(** Writing [val (i, j)] at [i * C + j] for all [i < R], [j < C]. *)
Lemma write_all_row_major (R C : nat) (pos : nat * nat -> nat)
      (val : nat * nat -> T) (buf : seq T) :
  size buf = R * C ->
  (forall i j, pos (i, j) = i * C + j) ->
  write_all x0 pos val [seq (a, b) | a <- iota 0 R, b <- iota 0 C] buf
  = tab R C (fun i j => val (i, j)).
Proof.
move=> Hsz Hpos.
have Hlt : {in [seq (a, b) | a <- iota 0 R, b <- iota 0 C],
            forall k, pos k < size buf}.
  move=> [i j]; rewrite mem_pairs_iota Hpos Hsz => /andP [Hi Hj].
  exact: ltn_row_major.
apply: (@eq_from_nth _ x0); first by rewrite size_write_all // size_tab.
move=> q; rewrite size_write_all // Hsz => Hq.
have HC : 0 < C by case: C Hq {Hsz Hpos Hlt} => //; rewrite muln0.
have Hi : q %/ C < R by rewrite ltn_divLR.
have Hj : q %% C < C by rewrite ltn_pmod.
rewrite {1 2}(divn_eq q C) nth_tab // -Hpos.
apply: nth_write_all; first by rewrite mem_pairs_iota Hi Hj.
move=> [i j] [i' j']; rewrite !mem_pairs_iota !Hpos.
move=> /andP [_ Hj1] /andP [_ Hj2] E.
by case: (row_major_inj Hj1 Hj2 E) => -> ->.
Qed.

(** Writing [val (i, j)] at [j * R + i] for all [i < R], [j < C]. *)
Lemma write_all_col_major (R C : nat) (pos : nat * nat -> nat)
      (val : nat * nat -> T) (buf : seq T) :
  size buf = C * R ->
  (forall i j, pos (i, j) = j * R + i) ->
  write_all x0 pos val [seq (a, b) | a <- iota 0 R, b <- iota 0 C] buf
  = tab C R (fun j i => val (i, j)).
Proof.
move=> Hsz Hpos.
have Hlt : {in [seq (a, b) | a <- iota 0 R, b <- iota 0 C],
            forall k, pos k < size buf}.
  move=> [i j]; rewrite mem_pairs_iota Hpos Hsz => /andP [Hi Hj].
  exact: ltn_row_major.
apply: (@eq_from_nth _ x0); first by rewrite size_write_all // size_tab.
move=> q; rewrite size_write_all // Hsz => Hq.
have HR : 0 < R by case: R Hq {Hsz Hpos Hlt} => //; rewrite muln0.
have Hj : q %/ R < C by rewrite ltn_divLR.
have Hi : q %% R < R by rewrite ltn_pmod.
rewrite {1 2}(divn_eq q R) nth_tab // -Hpos.
apply: nth_write_all; first by rewrite mem_pairs_iota Hi Hj.
move=> [i j] [i' j']; rewrite !mem_pairs_iota !Hpos.
move=> /andP [Hi1 _] /andP [Hi2 _] E.
by case: (row_major_inj Hi1 Hi2 E) => -> ->.
Qed.

(** *** Writes at a running index *)

Local Notation push := (push x0).

Lemma foldl_push (xs : seq T) (k : nat) (buf : seq T) :
  k + size xs <= size buf ->
  foldl push (k, buf) xs
  = (k + size xs, take k buf ++ xs ++ drop (k + size xs) buf).
Proof.
elim: xs k buf => [|x xs IH] k buf /=.
  by rewrite addn0 cat_take_drop.
rewrite addnS => Hk.
have Hlt : k < size buf by apply: leq_trans Hk; rewrite ltnS leq_addr.
have Hsz : size (take k buf) = k by rewrite size_take Hlt.
rewrite /push /= -/push set_nthE Hlt IH.
  by rewrite size_cat /= Hsz size_drop subnSK // subnKC ?addSn // ltnW.
congr (_, _).
rewrite take_cat Hsz ltnNge leqnSn /= subSnn /= take0.
rewrite drop_cat Hsz ltnNge addSnnS leq_addr /= addKn /= drop_drop.
by rewrite -catA /= addnS [size xs + k]addnC.
Qed.

(** Deleting index [i] from [0 .. n-1]. *)
Lemma filter_neq_iota (i n : nat) :
  i < n -> [seq x <- iota 0 n | x != i] = [seq bump i a | a <- iota 0 n.-1].
Proof.
elim: n => [|n IH] //; rewrite ltnS leq_eqVlt => /orP [/eqP ->|Hi].
  rewrite iota_rcons filter_rcons add0n /= eqxx /=.
  have Hall : {in iota 0 n, (fun x => x != n) =1 predT}.
    by move=> x; rewrite mem_iota add0n /= => /ltn_eqF ->.
  rewrite (eq_in_filter Hall) filter_predT.
  rewrite -[LHS]map_id; apply/eq_in_map => x.
  by rewrite mem_iota add0n /= => Hx; rewrite /bump leqNgt Hx.
rewrite iota_rcons filter_rcons add0n /= (gtn_eqF Hi) /= IH //.
case: n Hi {IH} => [|n] // Hi.
by rewrite -!pred_Sn [in RHS]iota_rcons map_rcons add0n /bump -ltnS Hi add1n.
Qed.

Lemma size_filter_neq_iota (i n : nat) :
  i < n -> size [seq x <- iota 0 n | x != i] = n.-1.
Proof. by move=> Hi; rewrite filter_neq_iota // size_map size_iota. Qed.

(** Rows [1 .. n-1] are the rows that remain when row [0] is deleted. *)
Lemma filter_neq0_iota (n : nat) : [seq x <- iota 0 n | x != 0] = iota 1 n.-1.
Proof.
case: n => [|n] //=.
have Hall : {in iota 1 n, (fun x => x != 0) =1 predT}.
  by move=> x; rewrite mem_iota; case: x.
by rewrite (eq_in_filter Hall) filter_predT.
Qed.

Lemma eq_tab (R C : nat) (f g : nat -> nat -> T) :
  (forall i j, i < R -> j < C -> f i j = g i j) -> tab R C f = tab R C g.
Proof.
move=> Hfg; apply: (@eq_from_nth _ x0); first by rewrite !size_tab.
move=> q; rewrite size_tab => Hq.
have HC : 0 < C by case: C Hq {Hfg} => //; rewrite muln0.
by rewrite !nth_mkseq // Hfg // ?ltn_divLR // ltn_pmod.
Qed.


(** A well-formed array is the table of its own elements. *)
Lemma tab_nth (R C : nat) (v : seq T) :
  size v = R * C -> tab R C (fun i j => nth x0 v (i * C + j)) = v.
Proof.
move=> Hsz; rewrite /tab -Hsz -[RHS](mkseq_nth x0).
by apply: eq_mkseq => q; rewrite -divn_eq.
Qed.

End Loops.

(** ** What the engine's loops compute *)

Section EngineSpec.

Variable F : arith.

Local Notation zero := (fzero F).
Local Notation one := (fone F).
Local Notation "x +. y" := (fadd x y) (at level 50, left associativity).
Local Notation "x -. y" := (fsub x y) (at level 50, left associativity).
Local Notation "x *. y" := (fmul x y) (at level 40, left associativity).
Local Notation "x /. y" := (fdiv x y) (at level 40, left associativity).

Lemma wf_minor (A : Matrix F) (i j : nat) :
  i < rows A -> j < cols A -> wf (minor A i j).
Proof.
by move=> Hi Hj; rewrite /wf /= size_allpairs !size_filter_neq_iota.
Qed.



(** Two nested loops of stores, with bounds and positions that may read
    the dimensions of the matrix being filled. *)
Lemma foldl2_store (pos : nat -> nat -> nat * nat -> nat)
      (val : nat * nat -> F) (t : nat -> nat -> seq nat)
      (s : seq nat) (r c : nat) (v : seq F) :
  foldl (fun m i =>
    foldl (fun m j => store m (pos (rows m) (cols m) (i, j)) (val (i, j)))
      m (t (rows m) (cols m)))
    (mkMatrix r c v) s
  = mkMatrix r c
      (write_all zero (pos r c) val [seq (i, j) | i <- s, j <- t r c] v).
Proof.
have Hin : forall i (js : seq nat) v',
    foldl (fun m j => store m (pos (rows m) (cols m) (i, j)) (val (i, j)))
      (mkMatrix r c v') js
    = mkMatrix r c (write_all zero (pos r c) val [seq (i, j) | j <- js] v').
  by move=> i; elim=> [|j js IH] v' //=; rewrite /store /= IH.
elim: s v => [|i s IH] v //=.
by rewrite Hin IH /write_all foldl_cat.
Qed.

(** A loop nest that appends the selected elements at the running
    index. *)
Lemma foldl2_push (p : nat -> nat -> bool) (h : nat -> nat -> F)
      (s t : seq nat) (k r c : nat) (v : seq F) :
  foldl (fun st i =>
    foldl (fun st j =>
      if p i j then (st.1.+1, store st.2 st.1 (h i j)) else st) st t)
    (k, mkMatrix r c v) s
  = let st := foldl (push zero) (k, v)
                (flatten [seq [seq h i j | j <- t & p i j] | i <- s]) in
    (st.1, mkMatrix r c st.2).
Proof.
have Hin : forall (xs : seq F) k' v',
    foldl (fun st x => (st.1.+1, store st.2 st.1 x)) (k', mkMatrix r c v') xs
    = let st := foldl (push zero) (k', v') xs in (st.1, mkMatrix r c st.2).
  by elim=> [|x xs IH] k' v' //=; rewrite /store /= IH.
elim: s k v => [|i s IH] k v //=.
rewrite foldl_cat -/(foldl _ _ _).
rewrite (foldl_filter_arg (p i)
           (fun st j => (st.1.+1, store st.2 st.1 (h i j)))).
rewrite (foldl_map_arg (fun st x => (st.1.+1, store st.2 st.1 x)) (h i)).
rewrite Hin /=.
by case: (foldl (push zero) (k, v) _) => k' v' /=; rewrite IH.
Qed.

Lemma fill_minor_matE (A : Matrix F) (i j r c : nat) (v : seq F) :
  i < rows A -> j < cols A -> size v = (rows A).-1 * (cols A).-1 ->
  r = (rows A).-1 -> c = (cols A).-1 ->
  (fill_minor_mat A (mkMatrix r c v) i j).2 = minor A i j.
Proof.
move=> Hi Hj Hsz -> ->; rewrite /fill_minor_mat.
rewrite (foldl2_push (fun m n => (n != j) && (m != i))
           (fun m n => load (values A) (m * cols A + n))).
set xs := flatten _.
have -> : xs = values (minor A i j).
  rewrite /xs /minor /= /allpairs /=.
  elim: (iota 0 (rows A)) => [|m s IH] //=.
  case: (m =P i) => [_|_] /=.
    by rewrite (@eq_filter _ _ pred0) ?filter_pred0 //= => n; rewrite andbF.
  by rewrite IH (@eq_filter _ _ (fun n => n != j)) // => n; rewrite andbT.
have Hxs : size (values (minor A i j)) = size v by rewrite (wf_minor Hi Hj).
by rewrite foldl_push ?add0n ?Hxs //= take0 drop_size cats0.
Qed.

Lemma fill_sub_matE (A : Matrix F) (top_row r c : nat) (v : seq F) :
  0 < rows A -> top_row < cols A -> size v = (rows A).-1 * (cols A).-1 ->
  r = (rows A).-1 -> c = (cols A).-1 ->
  (fill_sub_mat A (mkMatrix r c v) top_row).2 = minor A 0 top_row.
Proof.
move=> Hi Hj Hsz -> ->; rewrite /fill_sub_mat.
rewrite (foldl2_push (fun m n => n != top_row)
           (fun m n => load (values A) (m * cols A + n))).
set xs := flatten _.
have -> : xs = values (minor A 0 top_row).
  by rewrite /xs /minor /= filter_neq0_iota.
have Hxs : size (values (minor A 0 top_row)) = size v.
  by rewrite (wf_minor Hi Hj).
by rewrite foldl_push ?add0n ?Hxs //= take0 drop_size cats0.
Qed.

(** One level of [find_det]: the loop over the first row, with the
    sub-matrix buffer shown as the minor it holds. *)
Lemma find_det_rec_step (n : nat) (A : Matrix F) :
  rows A != 2 -> 0 < rows A ->
  find_det_rec n.+1 A
  = foldl (fun det c =>
      det +. pow_m1 F c *. elem A 0 c *. find_det_rec n (minor A 0 c))
      zero (iota 0 (cols A)).
Proof.
move=> /negbTE H2 H0; rewrite /= H2.
have Hloop : forall (cs : seq nat) det v,
    {in cs, forall c, c < cols A} -> size v = (rows A).-1 * (cols A).-1 ->
    (foldl (fun st top_row =>
       let: (det, sub_mat) := st in
       let sub_mat := (fill_sub_mat A sub_mat top_row).2 in
       (det +. pow_m1 F top_row *. load (values A) top_row
            *. find_det_rec n sub_mat, sub_mat))
       (det, mkMatrix (rows A).-1 (cols A).-1 v) cs).1
    = foldl (fun det c =>
        det +. pow_m1 F c *. elem A 0 c *. find_det_rec n (minor A 0 c))
        det cs.
  elim=> [|c cs IH] det v //= Hcs Hsz.
  have Hc : c < cols A by apply: Hcs; rewrite mem_head.
  rewrite (fill_sub_matE H0 Hc Hsz) // /minor /= -/(minor A 0 c).
  rewrite IH //; first by move=> c' Hc'; apply: Hcs; rewrite inE Hc' orbT.
  by rewrite -/(values (minor A 0 c)) (wf_minor H0 Hc).
rewrite /create_matrix Hloop ?size_nseq //.
by move=> c; rewrite mem_iota add0n.
Qed.

Lemma foldl_ext (S A : Type) (f g : S -> A -> S) (s : seq A) (z : S) :
  (forall z x, f z x = g z x) -> foldl f z s = foldl g z s.
Proof. by move=> Hfg; elim: s z => [|x s IH] z //=; rewrite Hfg IH. Qed.

Lemma get_transposeE (A : Matrix F) :
  get_transpose A
  = mkMatrix (cols A) (rows A)
      (tab (cols A) (rows A) (fun j i => elem A i j)).
Proof.
rewrite /get_transpose /create_matrix /=.
rewrite (foldl2_store (fun r c p => p.2 * c + p.1)
           (fun p => load (values A) (p.1 * cols A + p.2))
           (fun r c => iota 0 r)).
congr mkMatrix.
by apply: write_all_col_major; rewrite ?size_nseq.
Qed.

Lemma get_productE (A B : Matrix F) :
  get_product A B
  = mkMatrix (rows A) (cols B) (tab (rows A) (cols B) (dot A B)).
Proof.
rewrite /get_product /create_matrix /=.
set body := (fun st k => foldl _ st _).
have Hin : forall k (cs : seq nat) m,
    foldl (fun st i =>
       let: (sum, new_mat) := st in
       let sum :=
         foldl (fun sum j =>
           sum +. load (values A) (k * cols A + j)
               *. load (values B) (j * cols B + i))
           sum (iota 0 (cols A)) in
       (zero, store new_mat (k * cols new_mat + i) sum)) (zero, m) cs
    = (zero, foldl (fun m i => store m (k * cols m + i) (dot A B k i)) m cs).
  by move=> k; elim=> [|i cs IH] m //=; rewrite IH.
have Hout : forall (ks : seq nat) m,
    foldl body (zero, m) ks
    = (zero, foldl (fun m k =>
               foldl (fun m i => store m (k * cols m + i) (dot A B k i))
                 m (iota 0 (cols B))) m ks).
  by elim=> [|k ks IH] m //=; rewrite /body Hin -/body IH.
rewrite Hout /=.
rewrite (foldl2_store (fun r c p => p.1 * c + p.2)
           (fun p => dot A B p.1 p.2) (fun r c => iota 0 (cols B))).
congr mkMatrix.
by apply: write_all_row_major; rewrite ?size_nseq.
Qed.

Lemma find_cofactorE (A : Matrix F) :
  find_cofactor A
  = mkMatrix (rows A) (cols A)
      (tab (rows A) (cols A)
         (fun i j => pow_m1 F (i + j) *. get_determinant (minor A i j))).
Proof.
rewrite /find_cofactor /create_matrix /=.
rewrite (foldl2_store (fun r c p => p.1 * c + p.2)
  (fun p => pow_m1 F (p.1 + p.2)
     *. get_determinant
          (fill_minor_mat A
             (mkMatrix (rows A).-1 (cols A).-1
                (nseq ((rows A).-1 * (cols A).-1) zero)) p.1 p.2).2)
  (fun r c => iota 0 (cols A))).
congr mkMatrix.
rewrite (@write_all_row_major _ zero (rows A) (cols A)) ?size_nseq //.
apply: (eq_tab zero) => i j Hi Hj /=.
by rewrite fill_minor_matE ?size_nseq.
Qed.

Lemma get_inverseE (A : Matrix F) :
  get_inverse A
  = if feq0 (get_determinant A) then Exit INVALID_MATRIX DeterminantZero
    else Ret (mkMatrix (rows A) (cols A)
                (tab (rows A) (cols A)
                   (fun i j => elem (get_adjoint A) i j
                               /. get_determinant A))).
Proof.
rewrite /get_inverse; case: (feq0 _) => //; congr Ret.
rewrite /create_matrix.
rewrite (foldl2_store (fun r c p => p.1 * c + p.2)
  (fun p => load (values (get_adjoint A)) (p.1 * cols (get_adjoint A) + p.2)
            /. get_determinant A)
  (fun r c => iota 0 (cols A))).
congr mkMatrix.
by rewrite (@write_all_row_major _ zero (rows A) (cols A)) ?size_nseq.
Qed.

(** The determinant of a square matrix with more than two rows, as the
    loop of [find_det] accumulates it. *)
Lemma get_determinant_expand (A : Matrix F) (n : nat) :
  rows A = n -> cols A = n -> 2 < n ->
  get_determinant A
  = foldl (fun det c =>
      det +. pow_m1 F c *. elem A 0 c *. get_determinant (minor A 0 c))
      zero (iota 0 n).
Proof.
move=> Hr Hc Hn.
have Hn1 : (n == 1) = false by case: n Hn {Hr Hc} => [|[|n]].
have Hn2 : n != 2 by case: n Hn {Hr Hc Hn1} => [|[|[|n]]].
rewrite /get_determinant Hr Hn1 /find_det Hc.
case: n Hn Hr Hc Hn1 Hn2 => [|n'] // Hn Hr Hc Hn1 Hn2.
rewrite find_det_rec_step ?Hr // Hc.
apply: foldl_ext => det c.
rewrite /get_determinant /find_det /= Hr Hc /=.
by case: n' Hn {Hr Hc Hn1 Hn2} => [|[|n']].
Qed.

End EngineSpec.

(** ** Exact arithmetic: the engine over a field *)

Section ExactField.

Import GRing.Theory.
Local Open Scope ring_scope.

Variable K : fieldType.

Local Notation field_arith := (field_arith K).
Local Notation mat := (Matrix field_arith).








End ExactField.

(** ** The parser: how a parse can end *)
















(** [fgets] makes progress, so [read_line] never runs out of fuel. *)
Lemma fgets_chars_length (n : nat) (f : string) :
  String.length (fgets_chars n f).2 <= String.length f.
Proof.
elim: n f => [|n IH] [|c f] //.
rewrite [fgets_chars _ _]/=.
case: (Ascii.eqb c char_nl); first exact: leqnSn.
move: (IH f); case: (fgets_chars n f) => line rest Hle.
exact: leqW.
Qed.

Lemma fgets_progress (n : nat) (f line rest : string) :
  0 < n.-1 -> fgets n f = Some (line, rest) ->
  String.length rest < String.length f.
Proof.
case: n => [|[|n]] // _; case: f => [|c f] //.
rewrite /fgets [fgets_chars _ _]/=.
case: (Ascii.eqb c char_nl) => [[_ <-]|]; first exact: ltnSn.
move: (fgets_chars_length n f).
case: (fgets_chars n f) => l r Hle [_ <-].
exact: Hle.
Qed.

Lemma read_line_rec_total (fuel : nat) (w : world) :
  String.length (file (context w)) < fuel -> read_line_rec fuel w <> None.
Proof.
elim: fuel w => [|fuel IH] w //; rewrite ltnS => Hlen.
rewrite [read_line_rec _ _]/=.
case Hf: (fgets _ _) => [[line rest]|] //.
have Hrest : String.length rest < fuel.
  by apply: leq_trans Hlen; apply: (fgets_progress _ Hf).
case: (strtok line) => [[t|] save] /=.
  case: (starts_with_hash t) => //.
  exact: (IH (mkWorld (mkContext rest _ _ _) save)).
exact: (IH (mkWorld (mkContext rest _ _ _) save)).
Qed.


(** * Part IV: specification theorems *)

(** ** The algebra engine *)

Section EngineClaims.

Variable F : arith.

Local Notation zero := (fzero F).
Local Notation one := (fone F).
Local Notation "x +. y" := (fadd x y) (at level 50, left associativity).
Local Notation "x -. y" := (fsub x y) (at level 50, left associativity).
Local Notation "x *. y" := (fmul x y) (at level 40, left associativity).
Local Notation "x /. y" := (fdiv x y) (at level 40, left associativity).

(** C1 -- determinant.  For a well-formed square matrix [A] of size [n]:
    when [n = 1] the determinant is the single element; when [n = 2] it is
    [a00 * a11 - a01 * a10]; when [n > 2] it is the sum, accumulated from
    [0] over the columns [c = 0 .. n-1] in that order, of
    [(-1)^c * A[0,c]] times the determinant of the [(n-1) x (n-1)] minor
    obtained by deleting row [0] and column [c]. *)
Theorem get_determinant_spec (A : Matrix F) (n : nat) :
  wf A -> rows A = n -> cols A = n ->
  [/\ n = 1 -> get_determinant A = elem A 0 0,
      n = 2 ->
        get_determinant A
        = elem A 0 0 *. elem A 1 1 -. elem A 0 1 *. elem A 1 0
    & 2 < n ->
        get_determinant A
        = foldl (fun det c =>
            det +. pow_m1 F c *. elem A 0 c *. get_determinant (minor A 0 c))
            zero (iota 0 n)
        /\ forall c, c < n ->
             [/\ rows (minor A 0 c) = n.-1, cols (minor A 0 c) = n.-1
               & wf (minor A 0 c)]].
Proof.
move=> HA Hr Hc; split.
- by move=> En; rewrite /get_determinant Hr En.
- move=> En; move: Hr Hc; rewrite En => Hr Hc.
  by rewrite /get_determinant /find_det /elem Hr Hc /= Hr.
move=> Hn; split; last first.
  move=> c Hc'; split; rewrite /= ?Hr ?Hc //.
  by apply: wf_minor; rewrite ?Hr ?Hc // (ltn_trans _ Hn).
exact: get_determinant_expand.
Qed.

(** C2 -- inverse.  For a well-formed square matrix [A] of size [n],
    [get_inverse] exits with [INVALID_MATRIX] and the "determinant is 0"
    message exactly when the computed determinant compares equal to [0],
    and this is its only exit; otherwise it returns the [n x n] matrix
    whose element [(i, j)] is the element [(i, j)] of [get_adjoint A]
    divided by [get_determinant A]. *)
Theorem get_inverse_spec (A : Matrix F) (n : nat) :
  wf A -> rows A = n -> cols A = n ->
  [/\ get_inverse A = Exit INVALID_MATRIX DeterminantZero
        <-> feq0 (get_determinant A) = true,
      forall e r, get_inverse A = Exit e r ->
        e = INVALID_MATRIX /\ r = DeterminantZero,
      get_inverse A <> Undefined
    & feq0 (get_determinant A) = false ->
      exists B,
        [/\ get_inverse A = Ret B, rows B = n, cols B = n, wf B
          & forall i j, i < n -> j < n ->
              elem B i j = elem (get_adjoint A) i j /. get_determinant A]].
Proof.
move=> HA Hr Hc; rewrite get_inverseE.
case: (feq0 (get_determinant A)); split=> //.
  by move=> e r [-> ->].
move=> _.
exists (mkMatrix (rows A) (cols A)
          (tab (rows A) (cols A)
             (fun i j => elem (get_adjoint A) i j /. get_determinant A))).
split=> //; first by rewrite /wf /= size_tab.
by move=> i j Hi Hj; rewrite {1}/elem /load /= nth_tab ?Hr ?Hc.
Qed.

(** C3, as amended -- product.  [get_product] performs no shape test of
    its own: whenever [cols A = rows B] it returns the
    [rows A x cols B] matrix whose element [(k, i)] is the sum over [j]
    of [A[k,j] * B[j,i]], accumulated from [0] in the order
    [j = 0 .. cols A - 1].  The shape test lives in the caller [product]:
    it exits with [INVALID_MATRIX] exactly when neither
    [cols A = rows B] nor [cols B = rows A]; it multiplies in the stated
    order when [cols A = rows B]; and it swaps the operands when only the
    swapped order is compatible. *)
Theorem get_product_spec (A B : Matrix F) :
  wf A -> wf B ->
  [/\ cols A = rows B ->
        [/\ rows (get_product A B) = rows A,
            cols (get_product A B) = cols B,
            wf (get_product A B)
          & forall k i, k < rows A -> i < cols B ->
              elem (get_product A B) k i
              = foldl (fun sum j => sum +. elem A k j *. elem B j i)
                  zero (iota 0 (cols A))],
      product A B = Exit INVALID_MATRIX NoProduct
        <-> cols A <> rows B /\ cols B <> rows A,
      cols A = rows B -> product A B = Ret (false, get_product A B)
    & cols A <> rows B -> cols B = rows A ->
        product A B = Ret (true, get_product B A)].
Proof.
move=> HA HB; split.
- move=> _; rewrite get_productE /=; split=> //.
    by rewrite /wf /= size_tab.
  by move=> k i Hk Hi; rewrite /elem /load /= nth_tab.
- rewrite /product; case: (cols A =P rows B) => [E|NE] /=.
    by split=> // [[]].
  case: (cols B =P rows A) => [E|NE'] /=.
    by split=> // [[_]].
  by split.
- by rewrite /product => ->; rewrite eqxx.
by rewrite /product => /eqP/negbTE -> ->; rewrite eqxx.
Qed.

End EngineClaims.

Lemma get_determinant_spec_witness :
  [/\ wf M33, rows M33 = 3 & cols M33 = 3]
  /\ get_determinant M33
     = foldl (fun det c =>
         fadd det
           (fmul (fmul (pow_m1 float_arith c) (elem M33 0 c))
                 (get_determinant (minor M33 0 c))))
         0%float (iota 0 3).
Proof.
split; first by [].
case: (@get_determinant_spec float_arith M33 3 (erefl _) (erefl _) (erefl _)).
by move=> _ _ /(_ (erefl _)) [].
Defined.

Lemma get_inverse_spec_witness :
  [/\ wf M33, rows M33 = 3 & cols M33 = 3]
  /\ (get_inverse M33 = Exit INVALID_MATRIX DeterminantZero
      <-> feq0 (get_determinant M33) = true).
Proof.
split; first by [].
by case: (@get_inverse_spec float_arith M33 3 (erefl _) (erefl _) (erefl _)).
Defined.

Lemma get_product_spec_witness :
  [/\ wf M23, wf M32 & cols M23 = rows M32]
  /\ product M23 M32 = Ret (false, get_product M23 M32).
Proof.
split; first by [].
case: (@get_product_spec float_arith M23 M32 (erefl _) (erefl _)).
by move=> _ _ /(_ (erefl _)).
Defined.

(** C3, as stated, fails: the shared dimension of [A] (1 x 1) and [B]
    (2 x 1) does not match, yet [get_product] returns a matrix, and the
    caller [product] does not fail either: it swaps the operands. *)
Lemma get_product_no_shape_check :
  let A := fmatrix 1 1 [:: 2%float] in
  let B := fmatrix 2 1 [:: 3%float; 4%float] in
  [/\ wf A, wf B, cols A <> rows B,
      get_product A B = fmatrix 1 1 [:: 6%float]
    & product A B = Ret (true, fmatrix 2 1 [:: 6%float; 8%float])].
Proof. by split. Qed.

Section ExactClaims.

Import GRing.Theory.
Local Open Scope ring_scope.

Variable K : fieldType.

Local Notation field_arith := (field_arith K).
Local Notation mat := (Matrix field_arith).


End ExactClaims.



Section TransposeAdjointClaims.

Variable F : arith.

Local Notation zero := (fzero F).
Local Notation one := (fone F).
Local Notation "x +. y" := (fadd x y) (at level 50, left associativity).
Local Notation "x -. y" := (fsub x y) (at level 50, left associativity).
Local Notation "x *. y" := (fmul x y) (at level 40, left associativity).
Local Notation "x /. y" := (fdiv x y) (at level 40, left associativity).

(** C5 -- adjoint.  For a well-formed square matrix [A] of size [n]: when
    [n = 1] the adjoint is the 1 x 1 matrix holding [1]; otherwise it is
    the transpose of the cofactor matrix [find_cofactor A], which has the
    dimensions of [A] and whose element [(i, j)] is [(-1)^(i+j)] times the
    determinant of the minor obtained by deleting row [i] and column [j]
    of [A]. *)
Theorem get_adjoint_spec (A : Matrix F) (n : nat) :
  wf A -> rows A = n -> cols A = n ->
  (n = 1 -> get_adjoint A = mkMatrix 1 1 [:: one])
  /\ (1 < n ->
      [/\ get_adjoint A = get_transpose (find_cofactor A),
          rows (find_cofactor A) = n,
          cols (find_cofactor A) = n,
          wf (find_cofactor A)
        & forall i j, i < n -> j < n ->
            elem (find_cofactor A) i j
            = pow_m1 F (i + j) *. get_determinant (minor A i j)]).
Proof.
move=> HA Hr Hc; split=> [En|Hn].
  by rewrite /get_adjoint Hr Hc En.
have Hn1 : (n == 1) = false by case: n Hn {Hr Hc} => [|[|n]].
rewrite /get_adjoint Hr Hn1 find_cofactorE /= Hr Hc; split=> //.
  by rewrite /wf /= size_tab.
by move=> i j Hi Hj; rewrite /elem /load /= nth_tab.
Qed.

(** C6 -- transpose.  [get_transpose] is a total function (it has no
    failing outcome); for every well-formed matrix [A], square or not, the
    result is well formed with dimensions [(cols A, rows A)], its element
    [(j, i)] is the element [(i, j)] of [A] for all valid [i], [j], and
    transposing twice gives back [A]. *)
Theorem get_transpose_spec (A : Matrix F) :
  wf A ->
  [/\ rows (get_transpose A) = cols A,
      cols (get_transpose A) = rows A,
      wf (get_transpose A),
      forall i j, i < rows A -> j < cols A ->
        elem (get_transpose A) j i = elem A i j
    & get_transpose (get_transpose A) = A].
Proof.
move=> HA; rewrite !get_transposeE /=.
have Helem : forall i j, i < rows A -> j < cols A ->
    elem (mkMatrix (cols A) (rows A)
            (tab (cols A) (rows A) (fun j i => elem A i j))) j i
    = elem A i j.
  by move=> i j Hi Hj; rewrite /elem /load /= nth_tab.
split=> //; first by rewrite /wf /= size_tab.
case: A HA Helem => r c v /= HA Helem; congr mkMatrix.
rewrite (eq_tab zero Helem) /elem /load /=.
exact: tab_nth.
Qed.

End TransposeAdjointClaims.

Lemma get_adjoint_spec_witness :
  [/\ wf M33, rows M33 = 3 & cols M33 = 3]
  /\ get_adjoint M33 = get_transpose (find_cofactor M33).
Proof.
split; first by [].
case: (@get_adjoint_spec float_arith M33 3 (erefl _) (erefl _) (erefl _)).
by move=> _ /(_ (erefl _)) [].
Defined.

Lemma get_transpose_spec_witness :
  wf M23 /\ get_transpose (get_transpose M23) = M23.
Proof.
split; first by [].
by case: (@get_transpose_spec float_arith M23 (erefl _)).
Defined.

(** ** The parser *)

(** C7 -- parsing the text ["matrix 2 2\n1 2\n3 4\nend\n"] succeeds and
    yields the matrix with [rows = 2], [cols = 2] and the row-major values
    [1, 2, 3, 4], whatever the file is called and whatever the context
    held before. *)
Theorem read_matrix_2x2 (fopen : string -> option string) (ln0 : Z)
        (tok0 : option string) (name : string) :
  fopen name = Some text_2x2 ->
  read_matrix fopen ln0 tok0 name = Ret (fmatrix 2 2 [:: 1; 2; 3; 4]%float).
Proof. by move=> Hopen; rewrite /read_matrix Hopen; vm_compute. Qed.

Lemma read_matrix_2x2_witness :
  one_file text_2x2 "m.txt"%string = Some text_2x2
  /\ read_matrix (one_file text_2x2) 0 None "m.txt"
     = Ret (fmatrix 2 2 [:: 1; 2; 3; 4]%float).
Proof.
split; first by [].
exact: (@read_matrix_2x2 (one_file text_2x2) 0%Z None "m.txt"%string (erefl _)).
Defined.







(** C10 -- [get_double] accepts a token exactly when [strtod] consumes
    all of it, and the element is then the value [strtod] gives.  With
    [strtod] as the C standard describes it, the tokens [inf], [nan] and
    [0x1p3] are consumed whole, so a file with these elements parses. *)
Theorem get_double_accepts_strtod (fopen : string -> option string)
        (ln0 : Z) (tok0 : option string) (name : string) :
  [/\ forall t w, (strtod t).2 = EmptyString ->
        get_double (Some t) w = Ret ((strtod t).1, w),
      forall t w v w', get_double (Some t) w = Ret (v, w') ->
        [/\ (strtod t).2 = EmptyString, v = (strtod t).1 & w' = w],
      [/\ strtod "inf" = (infinity, EmptyString),
          strtod "nan" = (nan, EmptyString)
        & strtod "0x1p3" = (8%float, EmptyString)]
    & fopen name = Some text_special ->
      read_matrix fopen ln0 tok0 name
      = Ret (fmatrix 1 3 [:: infinity; nan; 8%float])].
Proof.
split.
- by move=> t w; rewrite /get_double; case: (strtod t) => v s /= ->.
- move=> t w v w'; rewrite /get_double; case: (strtod t) => v' [|c s] //=.
  by case=> <- <-.
- by split; vm_compute.
by move=> Hopen; rewrite /read_matrix Hopen; vm_compute.
Qed.

Lemma get_double_accepts_strtod_witness :
  one_file text_special "m.txt"%string = Some text_special
  /\ read_matrix (one_file text_special) 0 None "m.txt"
     = Ret (fmatrix 1 3 [:: infinity; nan; 8%float]).
Proof.
split; first by [].
by case: (@get_double_accepts_strtod (one_file text_special) 0%Z None
            "m.txt"%string) => _ _ _ /(_ (erefl _)).
Defined.
